(** * BiblePunctuationSystems_Tables.h: the record layouts of the punctuation
    system tables

    The header [DerivedFiles/BiblePunctuationSystems_Tables.h] declares three
    C structures behind an include guard and nothing else.  This development
    embeds

    - the header itself, line by line, as a list of preprocessor lines and
      typedef'd structure declarations, together with the part of the C
      preprocessor and of the C type rules that the declarations exercise
      (conditional inclusion, constant array bounds, [const] qualification,
      modifiable lvalues);
    - the values of the three structures as records, related to the
      declarations by positional initialisation;
    - the table generator, which is not part of the header, from its
      description. *)

From Stdlib Require Import String ZArith List Bool Lia Permutation Sorted.
Import ListNotations.
Local Open Scope string_scope.
Local Open Scope Z_scope.

(** ** Declarations *)

(** Integer constant expressions, as they occur in array bounds. *)
Inductive cexpr : Type :=
| Econst (n : Z)
| Eadd (a b : cexpr).

Fixpoint eval (e : cexpr) : Z :=
  match e with
  | Econst n => n
  | Eadd a b => eval a + eval b
  end.

(** The C types the header uses. *)
Inductive ctype : Type :=
| Tuchar
| Tint
| Tconst (t : ctype)
| Tarray (t : ctype) (bound : cexpr)
| Tptr (t : ctype)
| Tnamed (name : string).

(** [typedef struct tag { fields } name;] *)
Record struct_decl : Type := {
  struct_tag : string;
  struct_fields : list (string * ctype);
  typedef_name : string
}.

(** [const unsigned char referenceAbbreviation[3+1];] *)
Definition abbreviation_type : ctype :=
  Tarray (Tconst Tuchar) (Eadd (Econst 3) (Econst 1)).

Definition punctuationByRefEntryStruct : struct_decl := {|
  struct_tag := "punctuationByRefEntryStruct";
  struct_fields :=
    [ ("referenceAbbreviation", abbreviation_type);
      ("indexNumber", Tconst Tint) ];
  typedef_name := "punctuationByRefEntry"
|}.

Definition punctuationByIndexEntryStruct : struct_decl := {|
  struct_tag := "punctuationByIndexEntryStruct";
  struct_fields :=
    [ ("indexNumber", Tconst Tint);
      ("referenceAbbreviation", abbreviation_type) ];
  typedef_name := "punctuationByIndexEntry"
|}.

Definition tableEntryStruct : struct_decl := {|
  struct_tag := "tableEntryStruct";
  struct_fields :=
    [ ("systemName", Tptr (Tconst Tuchar));
      ("byReference", Tptr (Tnamed "punctuationByRefEntry"));
      ("byBook", Tptr (Tnamed "punctuationByIndexEntry")) ];
  typedef_name := "tableEntry"
|}.

(** ** The header and its include guard *)

Inductive line : Type :=
| Ifndef (macro : string)
| Define (macro : string)
| Endif
| Typedef (d : struct_decl).

Definition BIBLEPUNCTUATIONSYSTEMS_Tables_h : string :=
  "BIBLEPUNCTUATIONSYSTEMS_Tables_h".

(** The lines of the header, comments and blank lines left out. *)
Definition header : list line :=
  [ Ifndef BIBLEPUNCTUATIONSYSTEMS_Tables_h;
    Define BIBLEPUNCTUATIONSYSTEMS_Tables_h;
    Typedef punctuationByRefEntryStruct;
    Typedef punctuationByIndexEntryStruct;
    Typedef tableEntryStruct;
    Endif ].

(** The preprocessor state: the macros defined so far, the declarations that
    reached the compiler so far (oldest first), and the number of enclosing
    conditional groups that are being skipped. *)
Record cpp_state : Type := {
  macros : list string;
  decls : list struct_decl;
  skipping : nat
}.

Definition cpp_start : cpp_state :=
  {| macros := []; decls := []; skipping := 0 |}.

Definition defined (m : string) (st : cpp_state) : bool :=
  existsb (String.eqb m) (macros st).

Definition set_skipping (k : nat) (st : cpp_state) : cpp_state :=
  {| macros := macros st; decls := decls st; skipping := k |}.

(** One line of input.  In a skipped group only the nesting of conditionals
    is followed. *)
Definition cpp_line (st : cpp_state) (l : line) : cpp_state :=
  match skipping st with
  | O =>
      match l with
      | Ifndef m => if defined m st then set_skipping 1 st else st
      | Define m =>
          {| macros := m :: macros st; decls := decls st; skipping := 0 |}
      | Endif => st
      | Typedef d =>
          {| macros := macros st; decls := decls st ++ [d]; skipping := 0 |}
      end
  | S k =>
      match l with
      | Ifndef _ => set_skipping (S (S k)) st
      | Endif => set_skipping k st
      | Define _ | Typedef _ => st
      end
  end.

Definition cpp (ls : list line) (st : cpp_state) : cpp_state :=
  fold_left cpp_line ls st.

(** A translation unit that includes the header [n] times in a row. *)
Definition include_times (n : nat) : list line :=
  concat (repeat header n).

(** The declarations a translation unit sees after one inclusion. *)
Definition declared : list struct_decl := decls (cpp header cpp_start).

(** A second definition of a typedef name or of a structure tag is a
    constraint violation. *)
Fixpoint no_redefinition (ds : list struct_decl) : bool :=
  match ds with
  | [] => true
  | d :: rest =>
      negb (existsb (fun d' => String.eqb (typedef_name d') (typedef_name d)
                               || String.eqb (struct_tag d') (struct_tag d))
              rest)
      && no_redefinition rest
  end.

(** ** Looking declarations up *)

Definition find_typedef (env : list struct_decl) (name : string)
  : option struct_decl :=
  find (fun d => String.eqb (typedef_name d) name) env.

Definition field_names (d : struct_decl) : list string :=
  map fst (struct_fields d).

Definition field_type (d : struct_decl) (f : string) : option ctype :=
  option_map snd (find (fun p => String.eqb (fst p) f) (struct_fields d)).

(** [sizeof], in units of [unsigned char].  The language fixes it for the
    character types and for arrays of them; the size of [int], of pointers
    and of structures is left to the implementation. *)
Fixpoint sizeof (t : ctype) : option Z :=
  match t with
  | Tuchar => Some 1
  | Tconst t' => sizeof t'
  | Tarray t' bound => option_map (fun s => s * eval bound) (sizeof t')
  | Tint | Tptr _ | Tnamed _ => None
  end.

(** ** Qualifiers and modifiable lvalues *)

(** Qualifying an array type qualifies its elements, not the array. *)
Fixpoint add_const (t : ctype) : ctype :=
  match t with
  | Tconst _ => t
  | Tarray t' bound => Tarray (add_const t') bound
  | Tuchar | Tint | Tptr _ | Tnamed _ => Tconst t
  end.

Definition const_qualified (t : ctype) : bool :=
  match t with
  | Tconst _ => true
  | _ => false
  end.

Fixpoint unqualified (t : ctype) : ctype :=
  match t with
  | Tconst t' => unqualified t'
  | _ => t
  end.

(** The type of [x.f] for [x] of type [t]: the declared type of the member,
    const-qualified when [t] is. *)
Definition member_type (env : list struct_decl) (t : ctype) (f : string)
  : option ctype :=
  match unqualified t with
  | Tnamed s =>
      match find_typedef env s with
      | Some d =>
          option_map (fun ft => if const_qualified t then add_const ft else ft)
            (field_type d f)
      | None => None
      end
  | _ => None
  end.

(** The type of [*x] and of [x[i]] for [x] of type [t]. *)
Fixpoint pointee (t : ctype) : option ctype :=
  match t with
  | Tptr t' => Some t'
  | Tarray t' _ => Some t'
  | Tconst t' =>
      match t' with
      | Tarray _ _ => option_map add_const (pointee t')
      | _ => pointee t'
      end
  | Tuchar | Tint | Tnamed _ => None
  end.

(** Whether a type is const-qualified or is an aggregate with a
    const-qualified member, at any depth.  Structures cannot contain
    themselves, so the number of declarations bounds the depth; a name that
    is not declared is an incomplete type and counts as not modifiable. *)
Fixpoint contains_const (env : list struct_decl) (fuel : nat)
  : ctype -> bool :=
  fix go (t : ctype) : bool :=
    match t with
    | Tconst _ => true
    | Tarray t' _ => go t'
    | Tnamed s =>
        match fuel with
        | O => true
        | S k =>
            match find_typedef env s with
            | Some d =>
                existsb (fun p => contains_const env k (snd p))
                  (struct_fields d)
            | None => true
            end
        end
    | Tuchar | Tint | Tptr _ => false
    end.

(** A modifiable lvalue has neither an array type nor an incomplete type nor
    a const-qualified type nor, for a structure, a const-qualified member. *)
Definition modifiable_type (env : list struct_decl) (t : ctype) : bool :=
  match t with
  | Tarray _ _ => false
  | _ => negb (contains_const env (List.length env) t)
  end.

(** The lvalues that reach into the three structures: a declared object, a
    member [l.f], an element [l[i]] and an indirection [*l] ([l->f] is
    [( *l).f]). *)
Inductive lvalue : Type :=
| Lobject (t : ctype)
| Lmember (l : lvalue) (f : string)
| Lindex (l : lvalue)
| Lderef (l : lvalue).

Fixpoint lvalue_type (env : list struct_decl) (l : lvalue) : option ctype :=
  match l with
  | Lobject t => Some t
  | Lmember l' f =>
      match lvalue_type env l' with
      | Some t => member_type env t f
      | None => None
      end
  | Lindex l' | Lderef l' =>
      match lvalue_type env l' with
      | Some t => pointee t
      | None => None
      end
  end.

(** Whether [l = e] is accepted by the type rules. *)
Definition assignable (env : list struct_decl) (l : lvalue) : bool :=
  match lvalue_type env l with
  | Some t => modifiable_type env t
  | None => false
  end.

(** ** Values *)

(** What the header leaves to the implementation. *)
Record target : Type := {
  CHAR_BIT : Z;
  int_bits : Z
}.

Definition UCHAR_MAX (tg : target) : Z := 2 ^ CHAR_BIT tg - 1.
Definition INT_MIN (tg : target) : Z := - 2 ^ (int_bits tg - 1).
Definition INT_MAX (tg : target) : Z := 2 ^ (int_bits tg - 1) - 1.

(** The usual target: 8-bit characters and 32-bit [int]. *)
Definition common_target : target := {| CHAR_BIT := 8; int_bits := 32 |}.

(** Values of the arithmetic types and of arrays of them. *)
Inductive cval : Type :=
| Vnum (z : Z)
| Varr (zs : list Z).

Fixpoint has_ctype (tg : target) (t : ctype) (v : cval) : bool :=
  match t with
  | Tuchar =>
      match v with
      | Vnum z => (0 <=? z) && (z <=? UCHAR_MAX tg)
      | Varr _ => false
      end
  | Tint =>
      match v with
      | Vnum z => (INT_MIN tg <=? z) && (z <=? INT_MAX tg)
      | Varr _ => false
      end
  | Tconst t' => has_ctype tg t' v
  | Tarray t' bound =>
      match v with
      | Varr zs =>
          (Z.of_nat (List.length zs) =? eval bound)
          && forallb (fun z => has_ctype tg t' (Vnum z)) zs
      | Vnum _ => false
      end
  | Tptr _ | Tnamed _ => false
  end.

(** A brace-enclosed initialiser gives the members their values in
    declaration order. *)
Fixpoint initializes (tg : target) (fields : list (string * ctype))
  (vs : list cval) : bool :=
  match fields, vs with
  | [], [] => true
  | (_, t) :: fields', v :: vs' =>
      has_ctype tg t v && initializes tg fields' vs'
  | _, _ => false
  end.

Definition well_typed (tg : target) (env : list struct_decl) (name : string)
  (vs : list cval) : bool :=
  match find_typedef env name with
  | Some d => initializes tg (struct_fields d) vs
  | None => false
  end.

(** The two entry structures as records.  Both have members called
    [referenceAbbreviation] and [indexNumber], hence a module each. *)
Module ByRef.

Record punctuationByRefEntry : Type := {
  referenceAbbreviation : list Z;
  indexNumber : Z
}.

Definition members (e : punctuationByRefEntry) : list cval :=
  [ Varr (referenceAbbreviation e); Vnum (indexNumber e) ].

Definition wt (tg : target) (e : punctuationByRefEntry) : bool :=
  well_typed tg declared "punctuationByRefEntry" (members e).

End ByRef.

Module ByIndex.

Record punctuationByIndexEntry : Type := {
  indexNumber : Z;
  referenceAbbreviation : list Z
}.

Definition members (e : punctuationByIndexEntry) : list cval :=
  [ Vnum (indexNumber e); Varr (referenceAbbreviation e) ].

Definition wt (tg : target) (e : punctuationByIndexEntry) : bool :=
  well_typed tg declared "punctuationByIndexEntry" (members e).

End ByIndex.

(** Building an entry of one structure from the members of an entry of the
    other. *)
Definition to_index_entry (e : ByRef.punctuationByRefEntry)
  : ByIndex.punctuationByIndexEntry :=
  {| ByIndex.indexNumber := ByRef.indexNumber e;
     ByIndex.referenceAbbreviation := ByRef.referenceAbbreviation e |}.

Definition to_ref_entry (e : ByIndex.punctuationByIndexEntry)
  : ByRef.punctuationByRefEntry :=
  {| ByRef.referenceAbbreviation := ByIndex.referenceAbbreviation e;
     ByRef.indexNumber := ByIndex.indexNumber e |}.

(** The table structure.  The three members are pointers into static data;
    the record holds what they point to: the characters of the name, and the
    entries of the two arrays. *)
Record tableEntry : Type := {
  systemName : list Z;
  byReference : list ByRef.punctuationByRefEntry;
  byBook : list ByIndex.punctuationByIndexEntry
}.

(** The (abbreviation, index) pairs of the two arrays. *)
Definition ref_pair (e : ByRef.punctuationByRefEntry) : list Z * Z :=
  (ByRef.referenceAbbreviation e, ByRef.indexNumber e).

Definition index_pair (e : ByIndex.punctuationByIndexEntry) : list Z * Z :=
  (ByIndex.referenceAbbreviation e, ByIndex.indexNumber e).

(** Printable characters of the C locale, and the string terminator. *)
Definition isprint (c : Z) : bool := (32 <=? c) && (c <=? 126).

Definition NUL : Z := 0.

(** An abbreviation as the description of the tables has it: three printable
    characters and the terminator. *)
Definition abbreviation_shape (a : list Z) : bool :=
  match a with
  | [c1; c2; c3; c4] =>
      isprint c1 && isprint c2 && isprint c3 && (c4 =? NUL)
  | _ => false
  end.

(** Initialising a character array of [bound] elements from a string
    literal: the characters, then the terminator if there is room, then
    zeros; a literal with more characters than elements is rejected. *)
Definition string_initializer (bound : Z) (s : list Z) : option (list Z) :=
  if Z.of_nat (List.length s) <=? bound
  then Some (s ++ repeat NUL (Z.to_nat bound - List.length s))%list
  else None.

(** An entry of either structure, and its two members. *)
Definition entry : Type :=
  (ByRef.punctuationByRefEntry + ByIndex.punctuationByIndexEntry)%type.

Definition entry_abbreviation (e : entry) : list Z :=
  match e with
  | inl r => ByRef.referenceAbbreviation r
  | inr i => ByIndex.referenceAbbreviation i
  end.

Definition entry_indexNumber (e : entry) : Z :=
  match e with
  | inl r => ByRef.indexNumber r
  | inr i => ByIndex.indexNumber i
  end.

Definition entry_wt (tg : target) (e : entry) : bool :=
  match e with
  | inl r => ByRef.wt tg r
  | inr i => ByIndex.wt tg i
  end.

(** The values of [unsigned char]. *)
Definition uchar_range (tg : target) (c : Z) : Prop := 0 <= c <= UCHAR_MAX tg.

(** The header without its guard: the declarations alone. *)
Definition unguarded : list line :=
  filter (fun l => match l with Typedef _ => true | _ => false end) header.

(** ** The generator of the tables *)

(** Modelled from the spec: the order of two reference abbreviations.  The
    header declares no comparison; the tables are described as sorted by
    reference abbreviation for binary search, taken here as the order of
    [strcmp]: character by character, as unsigned values, a proper prefix
    first. *)
Fixpoint abbreviation_leb (a b : list Z) : bool :=
  match a, b with
  | [], _ => true
  | _ :: _, [] => false
  | x :: a', y :: b' => (x <? y) || ((x =? y) && abbreviation_leb a' b')
  end.

(** Modelled from the spec: the generator's sorting step, which is not in
    the header; an insertion of one entry in front of the first entry that
    is not below it. *)
Fixpoint insert_by {A : Type} (leb : A -> A -> bool) (x : A) (l : list A)
  : list A :=
  match l with
  | [] => [x]
  | y :: l' => if leb x y then x :: l else y :: insert_by leb x l'
  end.

(** Modelled from the spec: the generator's sorting step, which is not in
    the header. *)
Definition sort_by {A : Type} (leb : A -> A -> bool) (l : list A) : list A :=
  fold_right (insert_by leb) [] l.

(** Modelled from the spec: the key [byReference] is sorted by, the
    reference abbreviation; the comparison is not in the header. *)
Definition ref_leb (x y : ByRef.punctuationByRefEntry) : bool :=
  abbreviation_leb (ByRef.referenceAbbreviation x)
    (ByRef.referenceAbbreviation y).

(** Modelled from the spec: the key [byBook] is sorted by, the index
    number; the comparison is not in the header. *)
Definition index_leb (x y : ByIndex.punctuationByIndexEntry) : bool :=
  ByIndex.indexNumber x <=? ByIndex.indexNumber y.

(** The entry of each array for one (abbreviation, index) association. *)
Definition ref_entry_of (p : list Z * Z) : ByRef.punctuationByRefEntry :=
  {| ByRef.referenceAbbreviation := fst p; ByRef.indexNumber := snd p |}.

Definition index_entry_of (p : list Z * Z)
  : ByIndex.punctuationByIndexEntry :=
  {| ByIndex.indexNumber := snd p; ByIndex.referenceAbbreviation := fst p |}.

(** Modelled from the spec: the external generator that populates a table,
    which is not in the header.  It is described as writing the same logical
    associations twice, once sorted by reference abbreviation and once
    sorted by index number. *)
Definition populate (name : list Z) (entries : list (list Z * Z))
  : tableEntry :=
  {| systemName := name;
     byReference := sort_by ref_leb (map ref_entry_of entries);
     byBook := sort_by index_leb (map index_entry_of entries) |}.

(** Modelled from the spec: the orders the two arrays are described as
    sorted by, which the header does not declare. *)
Definition ref_le (x y : ByRef.punctuationByRefEntry) : Prop :=
  ref_leb x y = true.

Definition index_le (x y : ByIndex.punctuationByIndexEntry) : Prop :=
  ByIndex.indexNumber x <= ByIndex.indexNumber y.

(** * Properties *)

(** ** The declarations the header introduces *)

(** C1: each structure has the members of the public contract, in its
    order: the abbreviation then the index in [punctuationByRefEntry], the
    index then the abbreviation in [punctuationByIndexEntry], and
    [systemName], [byReference] (a pointer to [punctuationByRefEntry]),
    [byBook] (a pointer to [punctuationByIndexEntry]) in [tableEntry]. *)
Theorem record_layouts :
  exists dr di dt,
    find_typedef declared "punctuationByRefEntry" = Some dr /\
    find_typedef declared "punctuationByIndexEntry" = Some di /\
    find_typedef declared "tableEntry" = Some dt /\
    field_names dr = ["referenceAbbreviation"; "indexNumber"] /\
    field_names di = ["indexNumber"; "referenceAbbreviation"] /\
    field_names dt = ["systemName"; "byReference"; "byBook"] /\
    List.length (struct_fields dr) = 2%nat /\
    List.length (struct_fields di) = 2%nat /\
    List.length (struct_fields dt) = 3%nat /\
    field_type dr "referenceAbbreviation" = field_type di "referenceAbbreviation" /\
    field_type dr "indexNumber" = field_type di "indexNumber" /\
    field_type dt "byReference" = Some (Tptr (Tnamed (typedef_name dr))) /\
    field_type dt "byBook" = Some (Tptr (Tnamed (typedef_name di))) /\
    option_map unqualified (field_type dr "indexNumber") = Some Tint /\
    option_map (fun t => option_map unqualified (pointee t))
      (field_type dr "referenceAbbreviation") = Some (Some Tuchar) /\
    option_map (fun t => option_map unqualified (pointee t))
      (field_type dt "systemName") = Some (Some Tuchar).
Proof.
  exists punctuationByRefEntryStruct, punctuationByIndexEntryStruct,
    tableEntryStruct.
  repeat split.
Qed.

(** ** Well-typed entries *)

Lemma has_abbreviation_type (tg : target) (a : list Z) :
  has_ctype tg abbreviation_type (Varr a) = true <->
  List.length a = 4%nat /\ Forall (uchar_range tg) a.
Proof.
  unfold abbreviation_type, uchar_range; cbn [has_ctype eval].
  rewrite andb_true_iff, Z.eqb_eq, forallb_forall, Forall_forall.
  split; intros [Hlen Hall]; (split; [lia|]); intros c Hc;
    specialize (Hall c Hc).
  - apply andb_true_iff in Hall; lia.
  - apply andb_true_iff; lia.
Qed.

Lemma has_int_type (tg : target) (z : Z) :
  has_ctype tg (Tconst Tint) (Vnum z) = true <-> INT_MIN tg <= z <= INT_MAX tg.
Proof.
  cbn [has_ctype]; rewrite andb_true_iff; lia.
Qed.

Lemma entry_wt_iff (tg : target) (e : entry) :
  entry_wt tg e = true <->
  List.length (entry_abbreviation e) = 4%nat /\
  Forall (uchar_range tg) (entry_abbreviation e) /\
  INT_MIN tg <= entry_indexNumber e <= INT_MAX tg.
Proof.
  destruct e as [[a z] | [z a]]; cbn [entry_wt entry_abbreviation
    entry_indexNumber ByRef.referenceAbbreviation ByRef.indexNumber
    ByIndex.referenceAbbreviation ByIndex.indexNumber].
  - unfold ByRef.wt, well_typed, ByRef.members.
    change (find_typedef declared "punctuationByRefEntry")
      with (Some punctuationByRefEntryStruct).
    cbn [struct_fields punctuationByRefEntryStruct initializes
      ByRef.referenceAbbreviation ByRef.indexNumber].
    rewrite andb_true_r, andb_true_iff, has_abbreviation_type, has_int_type.
    tauto.
  - unfold ByIndex.wt, well_typed, ByIndex.members.
    change (find_typedef declared "punctuationByIndexEntry")
      with (Some punctuationByIndexEntryStruct).
    cbn [struct_fields punctuationByIndexEntryStruct initializes
      ByIndex.referenceAbbreviation ByIndex.indexNumber].
    rewrite andb_true_r, andb_true_iff, has_abbreviation_type, has_int_type.
    tauto.
Qed.

(** C2: in every instance of either entry structure the member
    [referenceAbbreviation] has exactly 4 elements of one storage unit each,
    3 for the characters and 1 for the terminator, whatever its content: the
    member is declared with the constant bound [3+1] in both structures and
    its size is 4. *)
Theorem abbreviation_fixed_width (tg : target) (e : entry) :
  entry_wt tg e = true ->
  List.length (entry_abbreviation e) = 4%nat /\
  field_type punctuationByRefEntryStruct "referenceAbbreviation"
    = Some (Tarray (Tconst Tuchar) (Eadd (Econst 3) (Econst 1))) /\
  field_type punctuationByIndexEntryStruct "referenceAbbreviation"
    = Some (Tarray (Tconst Tuchar) (Eadd (Econst 3) (Econst 1))) /\
  eval (Eadd (Econst 3) (Econst 1)) = 3 + 1 /\
  sizeof (Tarray (Tconst Tuchar) (Eadd (Econst 3) (Econst 1))) = Some 4.
Proof.
  intros Hwt; apply entry_wt_iff in Hwt.
  destruct Hwt as [Hlen _].
  repeat split; assumption.
Qed.

Lemma abbreviation_fixed_width_witness :
  let e : entry :=
    inl {| ByRef.referenceAbbreviation := [71; 69; 78; 0];
           ByRef.indexNumber := 1 |} in
  entry_wt common_target e = true /\
  List.length (entry_abbreviation e) = 4%nat.
Proof.
  intro e; split.
  - reflexivity.
  - apply (abbreviation_fixed_width common_target e); reflexivity.
Defined.

(** C3: an entry of one structure rebuilt from the members of the entry of
    the other structure built from its members is the entry itself, in both
    directions; the conversions keep both members, and the two structures
    declare the same two members, in the opposite order, so that they keep
    well-typedness too. *)
Theorem entry_round_trip :
  (forall r, to_ref_entry (to_index_entry r) = r) /\
  (forall i, to_index_entry (to_ref_entry i) = i) /\
  (forall r,
      ByIndex.referenceAbbreviation (to_index_entry r)
        = ByRef.referenceAbbreviation r /\
      ByIndex.indexNumber (to_index_entry r) = ByRef.indexNumber r) /\
  (forall i,
      ByRef.referenceAbbreviation (to_ref_entry i)
        = ByIndex.referenceAbbreviation i /\
      ByRef.indexNumber (to_ref_entry i) = ByIndex.indexNumber i) /\
  struct_fields punctuationByIndexEntryStruct
    = rev (struct_fields punctuationByRefEntryStruct) /\
  (forall tg r, ByIndex.wt tg (to_index_entry r) = ByRef.wt tg r) /\
  (forall tg i, ByRef.wt tg (to_ref_entry i) = ByIndex.wt tg i).
Proof.
  repeat split.
  - intros [a z]; reflexivity.
  - intros [z a]; reflexivity.
  - intros tg [a z]; unfold ByIndex.wt, ByRef.wt, well_typed; cbn.
    rewrite !andb_true_r; apply andb_comm.
  - intros tg [z a]; unfold ByIndex.wt, ByRef.wt, well_typed; cbn.
    rewrite !andb_true_r; apply andb_comm.
Qed.

(** ** What the declarations leave open *)

(** C7, as stated, fails: [indexNumber] is declared [const int], a signed
    type, and an entry with index [-1] is well typed. *)
Lemma index_may_be_negative :
  let e : entry :=
    inl {| ByRef.referenceAbbreviation := [71; 69; 78; 0];
           ByRef.indexNumber := -1 |} in
  entry_wt common_target e = true /\ ~ 0 <= entry_indexNumber e.
Proof.
  intro e; split.
  - reflexivity.
  - cbn; lia.
Qed.

(** C7, amended: in every entry of either structure [indexNumber] is a value
    of the signed type [int], between [INT_MIN] and [INT_MAX]. *)
Theorem index_in_int_range (tg : target) (e : entry) :
  entry_wt tg e = true ->
  INT_MIN tg <= entry_indexNumber e <= INT_MAX tg.
Proof.
  intros Hwt; apply entry_wt_iff in Hwt; tauto.
Qed.

Lemma index_in_int_range_witness :
  let e : entry :=
    inr {| ByIndex.indexNumber := 66;
           ByIndex.referenceAbbreviation := [82; 69; 86; 0] |} in
  entry_wt common_target e = true /\
  INT_MIN common_target <= entry_indexNumber e <= INT_MAX common_target.
Proof.
  intro e; split.
  - reflexivity.
  - apply (index_in_int_range common_target e); reflexivity.
Defined.

(** C8, as stated, fails: the declaration constrains neither the characters
    nor the last element, and an entry whose abbreviation is four control
    characters, none of them the terminator, is well typed. *)
Lemma abbreviation_content_unconstrained :
  let e : entry :=
    inl {| ByRef.referenceAbbreviation := [1; 2; 3; 4];
           ByRef.indexNumber := 0 |} in
  entry_wt common_target e = true /\
  abbreviation_shape (entry_abbreviation e) = false.
Proof.
  intro e; split; reflexivity.
Qed.

(** C8, amended: in every entry of either structure the content of
    [referenceAbbreviation] is exactly 4 values of [unsigned char], each
    between 0 and [UCHAR_MAX]. *)
Theorem abbreviation_content (tg : target) (e : entry) :
  entry_wt tg e = true ->
  List.length (entry_abbreviation e) = 4%nat /\
  Forall (uchar_range tg) (entry_abbreviation e).
Proof.
  intros Hwt; apply entry_wt_iff in Hwt; tauto.
Qed.

Lemma abbreviation_content_witness :
  let e : entry :=
    inl {| ByRef.referenceAbbreviation := [71; 69; 78; 0];
           ByRef.indexNumber := 1 |} in
  entry_wt common_target e = true /\
  List.length (entry_abbreviation e) = 4%nat /\
  Forall (uchar_range common_target) (entry_abbreviation e).
Proof.
  intro e; split.
  - reflexivity.
  - apply (abbreviation_content common_target e); reflexivity.
Defined.

(** What the bound [3+1] is for: a string literal of three printable
    characters initialises the member to these characters followed by the
    terminator. *)
Lemma string_literal_abbreviation (s : list Z) :
  List.length s = 3%nat ->
  forallb isprint s = true ->
  string_initializer (eval (Eadd (Econst 3) (Econst 1))) s
    = Some (s ++ [NUL])%list /\
  abbreviation_shape (s ++ [NUL]) = true.
Proof.
  destruct s as [|c1 [|c2 [|c3 [|c4 s]]]]; try discriminate.
  intros _ Hp; cbn in Hp.
  split; [reflexivity|].
  cbn [app abbreviation_shape].
  destruct (isprint c1), (isprint c2), (isprint c3); try discriminate.
  reflexivity.
Qed.

(** ** Assignment through the three structures *)

Lemma unqualified_named (t : ctype) (s : string) :
  unqualified t = Tnamed s ->
  t = Tnamed s \/ exists t', t = Tconst t' /\ unqualified t' = Tnamed s.
Proof.
  destruct t; cbn; intros H; try discriminate; eauto.
Qed.

(** The type of a member depends on the structure and on whether the
    structure lvalue is const-qualified, not on how it was reached. *)
Lemma member_type_named (t : ctype) (d : struct_decl) (f : string) :
  unqualified t = Tnamed (typedef_name d) ->
  find_typedef declared (typedef_name d) = Some d ->
  member_type declared t f =
  option_map (fun ft => if const_qualified t then add_const ft else ft)
    (field_type d f).
Proof.
  intros Hu Hd; unfold member_type; rewrite Hu, Hd; reflexivity.
Qed.

(** Case analysis on a member name against the declared names. *)
Ltac member_cases f :=
  unfold field_type;
  cbn [find fst snd struct_fields punctuationByRefEntryStruct
       punctuationByIndexEntryStruct tableEntryStruct];
  repeat (destruct (String.eqb _ f); [cbn; try reflexivity|]);
  cbn; try reflexivity.

(** Every member of the two entry structures is const-qualified, and so is
    every element of the abbreviation. *)
Lemma entry_member_const (d : struct_decl) (q : bool) (f : string) :
  d = punctuationByRefEntryStruct \/ d = punctuationByIndexEntryStruct ->
  match option_map (fun ft => if q then add_const ft else ft) (field_type d f)
  with
  | Some ft =>
      modifiable_type declared ft = false /\
      match pointee ft with
      | Some et => modifiable_type declared et = false
      | None => True
      end
  | None => True
  end.
Proof.
  intros [-> | ->]; destruct q; member_cases f; auto.
Qed.

Lemma entry_struct_const (t : ctype) (d : struct_decl) :
  d = punctuationByRefEntryStruct \/ d = punctuationByIndexEntryStruct ->
  unqualified t = Tnamed (typedef_name d) ->
  modifiable_type declared t = false.
Proof.
  intros Hd Hu; apply unqualified_named in Hu.
  destruct Hu as [-> | [t' [-> _]]]; [|reflexivity].
  destruct Hd as [-> | ->]; reflexivity.
Qed.

Lemma entry_lvalue_const (l : lvalue) (t : ctype) (d : struct_decl) :
  d = punctuationByRefEntryStruct \/ d = punctuationByIndexEntryStruct ->
  lvalue_type declared l = Some t ->
  unqualified t = Tnamed (typedef_name d) ->
  assignable declared l = false /\
  forall f,
    assignable declared (Lmember l f) = false /\
    assignable declared (Lindex (Lmember l f)) = false /\
    assignable declared (Lderef (Lmember l f)) = false.
Proof.
  intros Hd Hl Hu; split.
  - unfold assignable; rewrite Hl; eapply entry_struct_const; eauto.
  - intros f; unfold assignable; cbn [lvalue_type]; rewrite Hl.
    rewrite (member_type_named t d f Hu)
      by (destruct Hd as [-> | ->]; reflexivity).
    pose proof (entry_member_const d (const_qualified t) f Hd) as Hm.
    destruct (option_map _ (field_type d f)) as [ft|]; [|auto].
    destruct Hm as [Hft Hel].
    destruct (pointee ft); auto.
Qed.

(** The members of [tableEntry] are pointers that are not themselves
    const-qualified; what they point to is a const character or one of the
    entry structures. *)
Lemma table_member_pointee (q : bool) (f : string) :
  match
    option_map (fun ft => if q then add_const ft else ft)
      (field_type tableEntryStruct f)
  with
  | Some ft =>
      modifiable_type declared ft = negb q /\
      (pointee ft = Some (Tconst Tuchar) \/
       pointee ft = Some (Tnamed (typedef_name punctuationByRefEntryStruct)) \/
       pointee ft = Some (Tnamed (typedef_name punctuationByIndexEntryStruct)))
  | None => True
  end.
Proof.
  destruct q; member_cases f; auto.
Qed.

Lemma table_member_type (l : lvalue) (t : ctype) (f : string) :
  lvalue_type declared l = Some t ->
  unqualified t = Tnamed "tableEntry" ->
  lvalue_type declared (Lmember l f) =
  option_map (fun ft => if const_qualified t then add_const ft else ft)
    (field_type tableEntryStruct f).
Proof.
  intros Hl Hu; cbn [lvalue_type]; rewrite Hl.
  apply (member_type_named t tableEntryStruct f Hu); reflexivity.
Qed.

(** Nothing a member of a [tableEntry] points to can be assigned through
    it. *)
Lemma table_target_const (l : lvalue) (t : ctype) (f : string) (p : lvalue) :
  lvalue_type declared l = Some t ->
  unqualified t = Tnamed "tableEntry" ->
  p = Lderef (Lmember l f) \/ p = Lindex (Lmember l f) ->
  assignable declared p = false /\
  forall g,
    assignable declared (Lmember p g) = false /\
    assignable declared (Lindex (Lmember p g)) = false.
Proof.
  intros Hl Hu Hp.
  assert (Hpt : lvalue_type declared p =
                match lvalue_type declared (Lmember l f) with
                | Some ft => pointee ft
                | None => None
                end) by (destruct Hp as [-> | ->]; reflexivity).
  rewrite (table_member_type l t f Hl Hu) in Hpt.
  pose proof (table_member_pointee (const_qualified t) f) as Hm.
  destruct (option_map _ (field_type tableEntryStruct f)) as [ft|].
  - destruct Hm as [_ [Hc | [Hr | Hi]]]; rewrite ?Hc, ?Hr, ?Hi in Hpt.
    + split; [|intros g]; unfold assignable; cbn [lvalue_type];
        rewrite Hpt; auto.
    + destruct (entry_lvalue_const p _ punctuationByRefEntryStruct
                  (or_introl eq_refl) Hpt eq_refl) as [H1 H2].
      split; [exact H1|]; intros g; destruct (H2 g) as [? [? ?]]; auto.
    + destruct (entry_lvalue_const p _ punctuationByIndexEntryStruct
                  (or_intror eq_refl) Hpt eq_refl) as [H1 H2].
      split; [exact H1|]; intros g; destruct (H2 g) as [? [? ?]]; auto.
  - split; [|intros g]; unfold assignable; cbn [lvalue_type];
      rewrite Hpt; auto.
Qed.

(** C4, as stated, fails for [tableEntry]: none of its three members is
    const-qualified, and each can be assigned in an instance that is not
    itself declared [const]. *)
Lemma table_members_assignable :
  let t := Lobject (Tnamed "tableEntry") in
  lvalue_type declared t = Some (Tnamed "tableEntry") /\
  assignable declared (Lmember t "systemName") = true /\
  assignable declared (Lmember t "byReference") = true /\
  assignable declared (Lmember t "byBook") = true.
Proof.
  repeat split.
Qed.

(** C4, amended: no instance of [punctuationByRefEntry] or of
    [punctuationByIndexEntry] can be assigned, as a whole, member by member
    or element by element; through a [tableEntry] neither the characters of
    the name nor the entries of the two arrays can be assigned; the three
    members of a [tableEntry] cannot be assigned when the instance is
    const-qualified, and can when it is not. *)
Theorem declared_immutability (l : lvalue) (t : ctype) :
  lvalue_type declared l = Some t ->
  (unqualified t = Tnamed "punctuationByRefEntry" \/
   unqualified t = Tnamed "punctuationByIndexEntry" ->
   assignable declared l = false /\
   forall f,
     assignable declared (Lmember l f) = false /\
     assignable declared (Lindex (Lmember l f)) = false) /\
  (unqualified t = Tnamed "tableEntry" ->
   (forall f p,
       p = Lderef (Lmember l f) \/ p = Lindex (Lmember l f) ->
       assignable declared p = false /\
       forall g,
         assignable declared (Lmember p g) = false /\
         assignable declared (Lindex (Lmember p g)) = false) /\
   (forall f,
       In f (field_names tableEntryStruct) ->
       assignable declared (Lmember l f) = negb (const_qualified t))).
Proof.
  intros Hl; split.
  - intros Hu.
    assert (H : assignable declared l = false /\
                forall f,
                  assignable declared (Lmember l f) = false /\
                  assignable declared (Lindex (Lmember l f)) = false /\
                  assignable declared (Lderef (Lmember l f)) = false).
    { destruct Hu as [Hu | Hu].
      - apply (entry_lvalue_const l t punctuationByRefEntryStruct); auto.
      - apply (entry_lvalue_const l t punctuationByIndexEntryStruct); auto. }
    destruct H as [H1 H2]; split; [exact H1|].
    intros f; destruct (H2 f) as [? [? ?]]; auto.
  - intros Hu; split.
    + intros f p Hp; exact (table_target_const l t f p Hl Hu Hp).
    + intros f Hf; unfold assignable.
      rewrite (table_member_type l t f Hl Hu).
      cbn in Hf.
      destruct Hf as [<- | [<- | [<- | []]]];
        destruct (const_qualified t); reflexivity.
Qed.

Lemma declared_immutability_witness :
  let e := Lindex (Lobject (Tptr (Tnamed "punctuationByRefEntry"))) in
  lvalue_type declared e = Some (Tnamed "punctuationByRefEntry") /\
  assignable declared e = false /\
  assignable declared (Lmember e "indexNumber") = false /\
  assignable declared (Lindex (Lmember e "referenceAbbreviation")) = false.
Proof.
  intro e.
  pose proof (declared_immutability e (Tnamed "punctuationByRefEntry")
                eq_refl) as [H _].
  destruct (H (or_introl eq_refl)) as [H1 H2].
  split; [reflexivity|].
  split; [exact H1|].
  split; [apply (H2 "indexNumber") | apply (H2 "referenceAbbreviation")].
Defined.

(** C9: [systemName] is a pointer to const-qualified characters; whatever
    [tableEntry] it is read from, const-qualified or not, the characters it
    points to cannot be assigned through it. *)
Theorem systemName_read_only (l : lvalue) (t : ctype) :
  lvalue_type declared l = Some t ->
  unqualified t = Tnamed "tableEntry" ->
  field_type tableEntryStruct "systemName" = Some (Tptr (Tconst Tuchar)) /\
  lvalue_type declared (Lderef (Lmember l "systemName"))
    = Some (Tconst Tuchar) /\
  lvalue_type declared (Lindex (Lmember l "systemName"))
    = Some (Tconst Tuchar) /\
  assignable declared (Lderef (Lmember l "systemName")) = false /\
  assignable declared (Lindex (Lmember l "systemName")) = false.
Proof.
  intros Hl Hu.
  assert (Ht : lvalue_type declared (Lderef (Lmember l "systemName"))
               = Some (Tconst Tuchar)).
  { change (lvalue_type declared (Lderef (Lmember l "systemName")))
      with (match lvalue_type declared (Lmember l "systemName") with
            | Some ft => pointee ft
            | None => None
            end).
    rewrite (table_member_type l t "systemName" Hl Hu).
    destruct (const_qualified t); reflexivity. }
  assert (Hi : lvalue_type declared (Lindex (Lmember l "systemName"))
               = Some (Tconst Tuchar)) by exact Ht.
  repeat split; try assumption; unfold assignable.
  - rewrite Ht; reflexivity.
  - rewrite Hi; reflexivity.
Qed.

Lemma systemName_read_only_witness :
  let t := Lobject (Tnamed "tableEntry") in
  lvalue_type declared t = Some (Tnamed "tableEntry") /\
  assignable declared (Lindex (Lmember t "systemName")) = false.
Proof.
  intro t; split; [reflexivity|].
  apply (systemName_read_only t (Tnamed "tableEntry")); reflexivity.
Defined.

(** ** The include guard *)

Lemma cpp_app (a b : list line) (st : cpp_state) :
  cpp (a ++ b) st = cpp b (cpp a st).
Proof.
  unfold cpp; apply fold_left_app.
Qed.

(** Once the header has been read, reading it again changes nothing. *)
(** What one inclusion does, by cases on the state it is read in. *)
Lemma include_result (ms : list string) (ds : list struct_decl) (k : nat) :
  cpp header {| macros := ms; decls := ds; skipping := k |} =
  match k with
  | O =>
      if existsb (String.eqb BIBLEPUNCTUATIONSYSTEMS_Tables_h) ms
      then {| macros := ms; decls := ds; skipping := 0 |}
      else {| macros := BIBLEPUNCTUATIONSYSTEMS_Tables_h :: ms;
              decls := ((ds ++ [punctuationByRefEntryStruct])
                          ++ [punctuationByIndexEntryStruct])
                         ++ [tableEntryStruct];
              skipping := 0 |}
  | S _ => {| macros := ms; decls := ds; skipping := k |}
  end.
Proof.
  destruct k as [|k]; [|reflexivity].
  unfold cpp, header; cbn [fold_left].
  change (cpp_line {| macros := ms; decls := ds; skipping := 0 |}
            (Ifndef BIBLEPUNCTUATIONSYSTEMS_Tables_h))
    with (if existsb (String.eqb BIBLEPUNCTUATIONSYSTEMS_Tables_h) ms
          then {| macros := ms; decls := ds; skipping := 1 |}
          else {| macros := ms; decls := ds; skipping := 0 |}).
  destruct (existsb (String.eqb BIBLEPUNCTUATIONSYSTEMS_Tables_h) ms);
    reflexivity.
Qed.

(** Once the header has been read, reading it again changes nothing. *)
Lemma include_idempotent (st : cpp_state) :
  cpp header (cpp header st) = cpp header st.
Proof.
  destruct st as [ms ds k]; rewrite include_result.
  destruct k as [|k].
  - destruct (existsb (String.eqb BIBLEPUNCTUATIONSYSTEMS_Tables_h) ms)
      eqn:Hdef; rewrite include_result.
    + rewrite Hdef; reflexivity.
    + cbn [existsb]; rewrite String.eqb_refl; reflexivity.
  - rewrite include_result; reflexivity.
Qed.
Lemma include_times_once (n : nat) (st : cpp_state) :
  cpp (include_times (S n)) st = cpp header st.
Proof.
  revert st; induction n as [|n IH]; intros st.
  - unfold include_times; cbn [repeat concat]; rewrite app_nil_r; reflexivity.
  - change (include_times (S (S n))) with ((header ++ include_times (S n))%list).
    rewrite cpp_app, IH; apply include_idempotent.
Qed.

(** C10: a translation unit that includes the header once or more leaves the
    preprocessor in the state a single inclusion leaves it in, wherever the
    inclusions occur; from the start of a translation unit the three
    declarations reach the compiler exactly once, each name defined once. *)
Theorem include_guard_idempotent (n : nat) (st : cpp_state) :
  cpp (include_times (S n)) st = cpp header st /\
  decls (cpp (include_times (S n)) cpp_start)
    = [punctuationByRefEntryStruct; punctuationByIndexEntryStruct;
       tableEntryStruct] /\
  no_redefinition (decls (cpp (include_times (S n)) cpp_start)) = true.
Proof.
  split; [apply include_times_once|].
  rewrite include_times_once; split; reflexivity.
Qed.

(** Without the guard the second inclusion would define every name again. *)
Lemma unguarded_redefines :
  decls (cpp (unguarded ++ unguarded)%list cpp_start)
    = [punctuationByRefEntryStruct; punctuationByIndexEntryStruct;
       tableEntryStruct;
       punctuationByRefEntryStruct; punctuationByIndexEntryStruct;
       tableEntryStruct] /\
  no_redefinition (decls (cpp (unguarded ++ unguarded)%list cpp_start))
    = false.
Proof.
  split; reflexivity.
Qed.

(** ** The populated tables *)

Section Sorting.

Variable A : Type.
Variable leb : A -> A -> bool.
Hypothesis leb_total : forall x y, leb x y = false -> leb y x = true.

Lemma insert_by_perm (x : A) (l : list A) :
  Permutation (x :: l) (insert_by leb x l).
Proof.
  induction l as [|y l IH]; cbn [insert_by].
  - apply Permutation_refl.
  - destruct (leb x y).
    + apply Permutation_refl.
    + eapply perm_trans; [apply perm_swap|].
      apply perm_skip; exact IH.
Qed.

Lemma sort_by_perm (l : list A) : Permutation l (sort_by leb l).
Proof.
  induction l as [|x l IH]; cbn.
  - apply perm_nil.
  - eapply perm_trans; [apply perm_skip; exact IH|].
    apply insert_by_perm.
Qed.

Lemma insert_by_hd (a x : A) (l : list A) :
  leb a x = true ->
  HdRel (fun u v => leb u v = true) a l ->
  HdRel (fun u v => leb u v = true) a (insert_by leb x l).
Proof.
  intros Hax Hl; destruct l as [|y l]; cbn [insert_by].
  - constructor; exact Hax.
  - destruct (leb x y); constructor.
    + exact Hax.
    + inversion Hl; assumption.
Qed.

Lemma insert_by_sorted (x : A) (l : list A) :
  Sorted (fun u v => leb u v = true) l ->
  Sorted (fun u v => leb u v = true) (insert_by leb x l).
Proof.
  induction 1 as [|y l Hs IH Hhd]; cbn [insert_by].
  - repeat constructor.
  - destruct (leb x y) eqn:Hxy.
    + constructor; [constructor; assumption|].
      constructor; exact Hxy.
    + constructor; [exact IH|].
      apply insert_by_hd; [apply leb_total; exact Hxy | exact Hhd].
Qed.

Lemma sort_by_sorted (l : list A) :
  Sorted (fun u v => leb u v = true) (sort_by leb l).
Proof.
  induction l as [|x l IH]; cbn.
  - constructor.
  - apply insert_by_sorted; exact IH.
Qed.

End Sorting.

Lemma abbreviation_leb_total (a b : list Z) :
  abbreviation_leb a b = false -> abbreviation_leb b a = true.
Proof.
  revert b; induction a as [|x a IH]; intros [|y b]; cbn;
    try discriminate; try reflexivity.
  intros H; apply orb_false_iff in H; destruct H as [Hlt H].
  apply Z.ltb_ge in Hlt.
  destruct (Z.eqb_spec x y) as [->|Hne]; cbn in H.
  - rewrite Z.eqb_refl, (IH b H); apply orb_true_r.
  - replace (y <? x) with true by (symmetry; apply Z.ltb_lt; lia).
    reflexivity.
Qed.

Lemma abbreviation_leb_trans (a b c : list Z) :
  abbreviation_leb a b = true -> abbreviation_leb b c = true ->
  abbreviation_leb a c = true.
Proof.
  revert b c; induction a as [|x a IH]; intros [|y b] [|z c]; cbn;
    try discriminate; try reflexivity.
  intros Hab Hbc.
  apply orb_true_iff in Hab; apply orb_true_iff in Hbc.
  apply orb_true_iff.
  destruct Hab as [Hab | Hab]; destruct Hbc as [Hbc | Hbc];
    rewrite ?andb_true_iff, ?Z.ltb_lt, ?Z.eqb_eq in *.
  - left; lia.
  - left; lia.
  - left; lia.
  - right; split; [lia|].
    apply (IH b c); tauto.
Qed.

Lemma ref_pair_of (p : list Z * Z) : ref_pair (ref_entry_of p) = p.
Proof. destruct p; reflexivity. Qed.

Lemma index_pair_of (p : list Z * Z) : index_pair (index_entry_of p) = p.
Proof. destruct p; reflexivity. Qed.

Lemma map_pair_of {B : Type} (f : list Z * Z -> B) (g : B -> list Z * Z)
  (l : list (list Z * Z)) :
  (forall p, g (f p) = p) -> map g (map f l) = l.
Proof.
  intros Hgf; rewrite map_map.
  induction l as [|p l IH]; cbn; [reflexivity|].
  rewrite Hgf, IH; reflexivity.
Qed.

(** The pairs of each array of a populated table are the generator's
    entries, in another order. *)
Lemma populate_pairs (name : list Z) (entries : list (list Z * Z)) :
  Permutation entries (map ref_pair (byReference (populate name entries))) /\
  Permutation entries (map index_pair (byBook (populate name entries))).
Proof.
  unfold populate; cbn [byReference byBook]; split.
  - rewrite <- (map_pair_of ref_entry_of ref_pair entries ref_pair_of)
      at 1.
    apply Permutation_map, sort_by_perm.
  - rewrite <- (map_pair_of index_entry_of index_pair entries index_pair_of)
      at 1.
    apply Permutation_map, sort_by_perm.
Qed.

(** C5: in a table populated by the generator the two arrays hold the same
    (abbreviation, index) pairs, each as often in one as in the other: a pair
    occurs in [byReference] exactly when it occurs in [byBook]. *)
Theorem populated_same_entries (name : list Z)
  (entries : list (list Z * Z)) :
  Permutation (map ref_pair (byReference (populate name entries)))
    (map index_pair (byBook (populate name entries))) /\
  (forall p,
      In p (map ref_pair (byReference (populate name entries))) <->
      In p (map index_pair (byBook (populate name entries)))) /\
  List.length (byReference (populate name entries))
    = List.length (byBook (populate name entries)).
Proof.
  destruct (populate_pairs name entries) as [Hr Hb].
  assert (Hp : Permutation
                 (map ref_pair (byReference (populate name entries)))
                 (map index_pair (byBook (populate name entries)))).
  { eapply perm_trans; [apply Permutation_sym; exact Hr | exact Hb]. }
  split; [exact Hp|]; split.
  - intros p; split; apply Permutation_in;
      [exact Hp | apply Permutation_sym; exact Hp].
  - apply Permutation_length in Hp.
    rewrite !length_map in Hp; exact Hp.
Qed.

Lemma index_le_trans (x y z : ByIndex.punctuationByIndexEntry) :
  index_le x y -> index_le y z -> index_le x z.
Proof.
  unfold index_le; lia.
Qed.

Lemma ref_le_trans (x y z : ByRef.punctuationByRefEntry) :
  ref_le x y -> ref_le y z -> ref_le x z.
Proof.
  unfold ref_le, ref_leb; apply abbreviation_leb_trans.
Qed.

(** C6: in a table populated by the generator [byReference] is sorted by
    reference abbreviation and [byBook] is sorted by index number: every
    entry is at most every entry after it. *)
Theorem populated_sorted (name : list Z) (entries : list (list Z * Z)) :
  StronglySorted ref_le (byReference (populate name entries)) /\
  StronglySorted index_le (byBook (populate name entries)).
Proof.
  unfold populate; cbn [byReference byBook]; split.
  - apply Sorted_StronglySorted; [exact ref_le_trans|].
    apply sort_by_sorted.
    intros x y; apply abbreviation_leb_total.
  - apply Sorted_StronglySorted; [exact index_le_trans|].
    assert (Hs : Sorted (fun u v => index_leb u v = true)
                   (sort_by index_leb (map index_entry_of entries))).
    { apply sort_by_sorted; unfold index_leb; intros x y H.
      apply Z.leb_le; apply Z.leb_gt in H; lia. }
    induction Hs as [|x l Hs IH Hhd]; constructor; [exact IH|].
    destruct Hhd as [|y l Hxy]; constructor.
    apply Z.leb_le; exact Hxy.
Qed.

(** The generator at work on three books given out of order. *)
Example populate_three :
  let t := populate [75; 74; 86]
             [([71; 69; 78; 0], 3); ([69; 88; 79; 0], 1);
              ([76; 69; 86; 0], 2)] in
  map ref_pair (byReference t)
    = [([69; 88; 79; 0], 1); ([71; 69; 78; 0], 3); ([76; 69; 86; 0], 2)] /\
  map index_pair (byBook t)
    = [([69; 88; 79; 0], 1); ([76; 69; 86; 0], 2); ([71; 69; 78; 0], 3)].
Proof.
  split; reflexivity.
Qed.

(** * Further properties of the header *)

(** ** The guard across a translation unit *)

Lemma defined_cpp_line (m : string) (st : cpp_state) (l : line) :
  defined m st = true -> defined m (cpp_line st l) = true.
Proof.
  unfold defined, cpp_line; intros Hm.
  destruct (skipping st) as [|k], l as [m' | m' | | d]; cbn [macros set_skipping];
    try exact Hm.
  - destruct (defined m' st); exact Hm.
  - cbn [existsb]; rewrite Hm; apply orb_true_r.
Qed.

Lemma defined_cpp (m : string) (ls : list line) (st : cpp_state) :
  defined m st = true -> defined m (cpp ls st) = true.
Proof.
  revert st; induction ls as [|l ls IH]; intros st Hm; [exact Hm|].
  apply (IH (cpp_line st l)), defined_cpp_line, Hm.
Qed.

Lemma include_when_defined (st : cpp_state) :
  defined BIBLEPUNCTUATIONSYSTEMS_Tables_h st = true -> cpp header st = st.
Proof.
  destruct st as [ms ds k]; unfold defined; cbn [macros]; intros Hd.
  rewrite include_result, Hd; destruct k; reflexivity.
Qed.

Lemma include_defines (st : cpp_state) :
  skipping st = 0%nat ->
  defined BIBLEPUNCTUATIONSYSTEMS_Tables_h (cpp header st) = true.
Proof.
  destruct st as [ms ds k]; cbn [skipping]; intros ->.
  rewrite include_result; unfold defined.
  destruct (existsb (String.eqb BIBLEPUNCTUATIONSYSTEMS_Tables_h) ms) eqn:Hd;
    cbn [macros existsb].
  - exact Hd.
  - rewrite String.eqb_refl; reflexivity.
Qed.

(** X1: once the header has been included in active code, a later inclusion
    changes nothing, whatever conditional groups, macro definitions and
    declarations the translation unit has in between. *)
Theorem later_inclusion_no_op (st : cpp_state) (between : list line) :
  skipping st = 0%nat ->
  cpp header (cpp between (cpp header st)) = cpp between (cpp header st).
Proof.
  intros Hact.
  apply include_when_defined, defined_cpp, include_defines, Hact.
Qed.

Lemma later_inclusion_no_op_witness :
  let other :=
    {| struct_tag := "otherStruct"; struct_fields := [("n", Tint)];
       typedef_name := "other" |} in
  let between := [Ifndef "OTHER_h"; Define "OTHER_h"; Typedef other; Endif] in
  skipping cpp_start = 0%nat /\
  cpp header (cpp between (cpp header cpp_start))
    = cpp between (cpp header cpp_start).
Proof.
  intros other between; split; [reflexivity|].
  apply (later_inclusion_no_op cpp_start between); reflexivity.
Defined.

(** X2: the whole effect of one inclusion, in any state: in active code with
    the guard not yet defined it defines the guard and appends the three
    declarations, in the order of the header, after those already made;
    otherwise (in a skipped group, or with the guard defined) it does
    nothing.  It never changes the nesting of conditional groups, defines no
    other macro and removes nothing. *)
Theorem include_effect (st : cpp_state) :
  cpp header st =
  (if Nat.eqb (skipping st) 0
      && negb (defined BIBLEPUNCTUATIONSYSTEMS_Tables_h st)
   then {| macros := BIBLEPUNCTUATIONSYSTEMS_Tables_h :: macros st;
           decls := decls st ++ [punctuationByRefEntryStruct;
                                 punctuationByIndexEntryStruct;
                                 tableEntryStruct];
           skipping := 0 |}
   else st) /\
  skipping (cpp header st) = skipping st.
Proof.
  destruct st as [ms ds k]; rewrite include_result.
  unfold defined; cbn [macros decls skipping].
  destruct k as [|k]; cbn [Nat.eqb andb].
  - destruct (existsb (String.eqb BIBLEPUNCTUATIONSYSTEMS_Tables_h) ms);
      cbn [negb]; split; try reflexivity.
    rewrite <- !app_assoc; reflexivity.
  - split; reflexivity.
Qed.




(** ** Reading through the structures *)





(** X5: through any [tableEntry], const-qualified or not, the entries of
    both arrays and their members can be read, at the declared types: an
    element of [byReference] is a [punctuationByRefEntry], an element of
    [byBook] a [punctuationByIndexEntry], their [indexNumber] a const [int]
    and the elements of their [referenceAbbreviation] const characters. *)
Theorem table_navigation_types (l : lvalue) (t : ctype) :
  lvalue_type declared l = Some t ->
  unqualified t = Tnamed "tableEntry" ->
  let r := Lindex (Lmember l "byReference") in
  let b := Lindex (Lmember l "byBook") in
  lvalue_type declared r = Some (Tnamed "punctuationByRefEntry") /\
  lvalue_type declared b = Some (Tnamed "punctuationByIndexEntry") /\
  lvalue_type declared (Lmember r "indexNumber") = Some (Tconst Tint) /\
  lvalue_type declared (Lmember b "indexNumber") = Some (Tconst Tint) /\
  lvalue_type declared (Lindex (Lmember r "referenceAbbreviation"))
    = Some (Tconst Tuchar) /\
  lvalue_type declared (Lindex (Lmember b "referenceAbbreviation"))
    = Some (Tconst Tuchar).
Proof.
  intros Hl Hu r b.
  assert (Hr : lvalue_type declared r = Some (Tnamed "punctuationByRefEntry")).
  { change (lvalue_type declared r)
      with (match lvalue_type declared (Lmember l "byReference") with
            | Some ft => pointee ft
            | None => None
            end).
    rewrite (table_member_type l t "byReference" Hl Hu).
    destruct (const_qualified t); reflexivity. }
  assert (Hb : lvalue_type declared b
               = Some (Tnamed "punctuationByIndexEntry")).
  { change (lvalue_type declared b)
      with (match lvalue_type declared (Lmember l "byBook") with
            | Some ft => pointee ft
            | None => None
            end).
    rewrite (table_member_type l t "byBook" Hl Hu).
    destruct (const_qualified t); reflexivity. }
  split; [exact Hr|]; split; [exact Hb|].
  repeat split; cbn [lvalue_type]; fold r b; rewrite ?Hr, ?Hb; reflexivity.
Qed.

Lemma table_navigation_types_witness :
  let t := Lobject (Tconst (Tnamed "tableEntry")) in
  lvalue_type declared t = Some (Tconst (Tnamed "tableEntry")) /\
  lvalue_type declared
    (Lmember (Lindex (Lmember t "byBook")) "indexNumber")
    = Some (Tconst Tint).
Proof.
  intro t; split; [reflexivity|].
  apply (table_navigation_types t (Tconst (Tnamed "tableEntry")));
    reflexivity.
Defined.

(** ** What the two entry structures accept *)

(** X6: the declarations accept every combination of values in range: any
    four [unsigned char] values with any [int] value make a well-typed entry
    of either structure. *)
Theorem values_in_range_accepted (tg : target) (a : list Z) (z : Z) :
  List.length a = 4%nat ->
  Forall (uchar_range tg) a ->
  INT_MIN tg <= z <= INT_MAX tg ->
  ByRef.wt tg {| ByRef.referenceAbbreviation := a; ByRef.indexNumber := z |}
    = true /\
  ByIndex.wt tg
    {| ByIndex.indexNumber := z; ByIndex.referenceAbbreviation := a |}
    = true.
Proof.
  intros Hlen Ha Hz; split.
  - apply (entry_wt_iff tg (inl _)); cbn; auto.
  - apply (entry_wt_iff tg (inr _)); cbn; auto.
Qed.

Lemma values_in_range_accepted_witness :
  ByRef.wt common_target
    {| ByRef.referenceAbbreviation := [255; 0; 7; 200];
       ByRef.indexNumber := -2147483648 |} = true /\
  ByIndex.wt common_target
    {| ByIndex.indexNumber := -2147483648;
       ByIndex.referenceAbbreviation := [255; 0; 7; 200] |} = true.
Proof.
  apply (values_in_range_accepted common_target [255; 0; 7; 200]
           (-2147483648)).
  - reflexivity.
  - repeat constructor; unfold uchar_range; cbn; lia.
  - cbn; lia.
Defined.
